(** * icdutil.addrrange: address ranges

    A shallow embedding of [src/icdutil/addrrange.py] and the properties of
    its address arithmetic: construction, end and next address, membership,
    iteration, overlap test, intersection and equality.

    Python integers are unbounded, so addresses and sizes are [Z]; the
    optional [addrwidth] is [option Z].  Code that may raise returns a
    [result]; an exception is identified by the name of its class. *)

From stdpp Require Import base numbers option list list_numbers strings.
From Stdlib Require Import Sorting.Sorted.

Open Scope Z_scope.

(** ** Python plumbing *)

(** Outcome of a call: a value, or a raised exception (its class name). *)
Inductive result (A : Type) : Type :=
  | Ok (a : A)
  | Raise (exc : string).
Arguments Ok {A} a.
Arguments Raise {A} exc.

Definition result_bind {A B : Type} (f : A → result B) (m : result A) : result B :=
  match m with
  | Ok a => f a
  | Raise e => Raise e
  end.

#[global] Instance result_mret : MRet result := λ A a, Ok a.
#[global] Instance result_mbind : MBind result := λ A B f m, result_bind f m.

(** [range(start, stop)] with the default step 1: the integers from [start]
    up to, excluding, [stop]; empty when [stop <= start]. *)
Definition range (start stop : Z) : list Z := seqZ start (stop - start).

(** ** The humannum collaborators *)

(** Modelled from the spec: [humannum.Hex] is not part of this repository.
    It is an [int] that carries a display width; the width only pads the
    rendering and never changes the numeric value. *)
Definition Hex (value : Z) (width : option Z) : Z := value.

(** Modelled from the spec: [humannum.Bytes] is not part of this repository.
    It is an [int] rendered as a byte count; the size reaches the range as an
    already resolved integer. *)
Definition Bytes (value : Z) : Z := value.

(** ** The class *)

(** The three [attrs] fields; [mkAddrRange] is [__attrs_init__]. *)
Record AddrRange : Type := mkAddrRange {
  baseaddr : Z;
  size : Z;
  addrwidth : option Z;
}.

(** Objects an [AddrRange] may be compared with. *)
Inductive pyobj : Type :=
  | PyNone
  | PyBool (b : bool)
  | PyInt (z : Z)
  | PyStr (s : string)
  | PyAddrRange (r : AddrRange)
  | NotImplemented.

(** [AddrRange.__init__]: wraps the arguments and stores them.  There is no
    [raise] in the constructor. *)
Definition __init__ (baseaddr size : Z) (addrwidth : option Z) : result AddrRange :=
  let baseaddr := Hex baseaddr addrwidth in
  let size := Bytes size in
  Ok (mkAddrRange baseaddr size addrwidth).

(** [AddrRange.endaddr] *)
Definition endaddr (self : AddrRange) : Z :=
  Hex (baseaddr self + size self - 1) (addrwidth self).

(** [AddrRange.nextaddr] *)
Definition nextaddr (self : AddrRange) : Z :=
  Hex (endaddr self + 1) (addrwidth self).

(** Equality of two optional integers, as Python's [==] decides it
    ([None == None], and [None] differs from every integer). *)
Definition optint_eqb (x y : option Z) : bool :=
  match x, y with
  | None, None => true
  | Some m, Some n => m =? n
  | _, _ => false
  end.

(** [AddrRange.__eq__]: the tuples [(addrwidth, baseaddr, size)] are compared
    element by element when [other] is an [AddrRange]. *)
Definition __eq__ (self : AddrRange) (other : pyobj) : pyobj :=
  match other with
  | PyAddrRange other =>
      PyBool (optint_eqb (addrwidth self) (addrwidth other)
              && (baseaddr self =? baseaddr other)
              && (size self =? size other))
  | _ => NotImplemented
  end.

(** [AddrRange.__contains__]: the chained comparison
    [self.baseaddr <= value <= self.endaddr]. *)
Definition __contains__ (self : AddrRange) (value : Z) : bool :=
  (baseaddr self <=? value) && (value <=? endaddr self).

(** [AddrRange.__iter__] *)
Definition __iter__ (self : AddrRange) : list Z :=
  range (baseaddr self) (endaddr self + 1).

(** [AddrRange.is_overlapping] *)
Definition is_overlapping (self other : AddrRange) : bool :=
  if baseaddr self <? baseaddr other then
    (* other is to the right of self *)
    endaddr self >=? baseaddr other
  else
    (* other is to the left of self *)
    baseaddr self <=? endaddr other.

(** [AddrRange.get_intersect] *)
Definition get_intersect (self other : AddrRange) : result (option AddrRange) :=
  let baseaddr := Z.max (baseaddr self) (baseaddr other) in
  let endaddr := Z.min (endaddr self) (endaddr other) in
  let size := endaddr - baseaddr + 1 in
  if size >? 0 then
    r ← __init__ baseaddr size (addrwidth self); mret (Some r)
  else
    mret None.

(** ** Vocabulary of the specification *)

(** A valid range has a positive size. *)
Definition valid (r : AddrRange) : Prop := 1 ≤ size r.

(** The symmetric interval test the specification compares
    [is_overlapping] with. *)
Definition overlap_symmetric (a b : AddrRange) : bool :=
  (baseaddr a <=? endaddr b) && (baseaddr b <=? endaddr a).

(** The key that equality is taken over. *)
Definition key (r : AddrRange) : Z * Z * option Z :=
  (baseaddr r, size r, addrwidth r).

(** Ranges a client obtains from the API while respecting the size
    precondition: built by the constructor from a size of at least 1, or
    returned by [get_intersect]. *)
Inductive live : AddrRange → Prop :=
  | live_init b s w r :
      1 ≤ s → __init__ b s w = Ok r → live r
  | live_intersect a b r :
      get_intersect a b = Ok (Some r) → live r.

(** Docstring ranges used as running examples. *)
Definition r1000_4k : AddrRange := mkAddrRange 0x1000 0x1000 None.
Definition r2000_4k : AddrRange := mkAddrRange 0x2000 0x1000 None.
Definition r3000_4k : AddrRange := mkAddrRange 0x3000 0x1000 None.
Definition r1FFF_1 : AddrRange := mkAddrRange 0x1FFF 1 None.
Definition r0_32k : AddrRange := mkAddrRange 0 0x8000 None.
Definition r200_6 : AddrRange := mkAddrRange 0x200 6 None.
Definition r1000_100_w32 : AddrRange := mkAddrRange 0x1000 0x100 (Some 32).
Definition r1000_100 : AddrRange := mkAddrRange 0x1000 0x100 None.

(** ** The docstring examples, evaluated *)

Example doctest_iter :
  __iter__ r200_6 = [512; 513; 514; 515; 516; 517].
Proof. reflexivity. Qed.

Example doctest_contains :
  __contains__ r1000_100_w32 0x1008 = true ∧ __contains__ r1000_100_w32 0x1400 = false.
Proof. split; reflexivity. Qed.

Example doctest_is_overlapping :
  is_overlapping r1000_4k r3000_4k = false
  ∧ is_overlapping r1000_4k r2000_4k = false
  ∧ is_overlapping r1000_4k r1FFF_1 = true
  ∧ is_overlapping r1000_4k r1000_4k = true
  ∧ is_overlapping r3000_4k r2000_4k = false
  ∧ is_overlapping r3000_4k r0_32k = true.
Proof. repeat split; reflexivity. Qed.

Example doctest_get_intersect :
  get_intersect r1000_4k r3000_4k = Ok None
  ∧ get_intersect r1000_4k r1FFF_1 = Ok (Some r1FFF_1)
  ∧ get_intersect r3000_4k r0_32k = Ok (Some r3000_4k).
Proof. repeat split; reflexivity. Qed.

Example doctest_eq :
  __eq__ r1000_100 (PyAddrRange r1000_100) = PyBool true
  ∧ __eq__ r1000_100 (PyAddrRange (mkAddrRange 0x1000 0x200 None)) = PyBool false
  ∧ __eq__ r1000_100_w32 (PyAddrRange r1000_100) = PyBool false.
Proof. repeat split; reflexivity. Qed.

(** ** Basic facts *)

Lemma Hex_value value width : Hex value width = value.
Proof. reflexivity. Qed.

Lemma endaddr_eq r : endaddr r = baseaddr r + size r - 1.
Proof. reflexivity. Qed.

Lemma nextaddr_eq r : nextaddr r = endaddr r + 1.
Proof. reflexivity. Qed.

Lemma valid_endaddr r : valid r → baseaddr r ≤ endaddr r.
Proof. unfold valid. rewrite endaddr_eq. lia. Qed.

Lemma init_Ok b s w : __init__ b s w = Ok (mkAddrRange b s w).
Proof. reflexivity. Qed.

Lemma contains_iff r v : __contains__ r v = true ↔ baseaddr r ≤ v ≤ endaddr r.
Proof.
  unfold __contains__.
  rewrite andb_true_iff, !Z.leb_le. tauto.
Qed.

Lemma contains_false_iff r v :
  __contains__ r v = false ↔ v < baseaddr r ∨ endaddr r < v.
Proof.
  rewrite <- not_true_iff_false, contains_iff. lia.
Qed.

(** [is_overlapping] as a proposition over the bounds, following its two
    branches. *)
Lemma is_overlapping_iff a b :
  is_overlapping a b = true ↔
    (baseaddr a < baseaddr b ∧ baseaddr b ≤ endaddr a)
    ∨ (baseaddr b ≤ baseaddr a ∧ baseaddr a ≤ endaddr b).
Proof.
  unfold is_overlapping.
  destruct (Z.ltb_spec (baseaddr a) (baseaddr b)).
  - rewrite Z.geb_le. lia.
  - rewrite Z.leb_le. lia.
Qed.

Lemma is_overlapping_false_iff a b :
  is_overlapping a b = false ↔
    (baseaddr a < baseaddr b ∧ endaddr a < baseaddr b)
    ∨ (baseaddr b ≤ baseaddr a ∧ endaddr b < baseaddr a).
Proof.
  rewrite <- not_true_iff_false, is_overlapping_iff. lia.
Qed.

(** [get_intersect] split on its guard. *)
Lemma get_intersect_Some a b :
  0 < Z.min (endaddr a) (endaddr b) - Z.max (baseaddr a) (baseaddr b) + 1 →
  get_intersect a b =
    Ok (Some (mkAddrRange
                (Z.max (baseaddr a) (baseaddr b))
                (Z.min (endaddr a) (endaddr b) - Z.max (baseaddr a) (baseaddr b) + 1)
                (addrwidth a))).
Proof.
  intros Hpos. unfold get_intersect.
  destruct (Z.gtb_spec
              (Z.min (endaddr a) (endaddr b) - Z.max (baseaddr a) (baseaddr b) + 1) 0);
    [reflexivity | lia].
Qed.

Lemma get_intersect_None a b :
  Z.min (endaddr a) (endaddr b) - Z.max (baseaddr a) (baseaddr b) + 1 ≤ 0 →
  get_intersect a b = Ok None.
Proof.
  intros Hle. unfold get_intersect.
  destruct (Z.gtb_spec
              (Z.min (endaddr a) (endaddr b) - Z.max (baseaddr a) (baseaddr b) + 1) 0);
    [lia | reflexivity].
Qed.

(** Inversion of a successful intersection. *)
Lemma get_intersect_inv a b r :
  get_intersect a b = Ok (Some r) →
  0 < Z.min (endaddr a) (endaddr b) - Z.max (baseaddr a) (baseaddr b) + 1
  ∧ r = mkAddrRange
          (Z.max (baseaddr a) (baseaddr b))
          (Z.min (endaddr a) (endaddr b) - Z.max (baseaddr a) (baseaddr b) + 1)
          (addrwidth a).
Proof.
  intros Hget.
  destruct (Z_lt_le_dec 0
              (Z.min (endaddr a) (endaddr b) - Z.max (baseaddr a) (baseaddr b) + 1))
    as [Hpos | Hle].
  - rewrite (get_intersect_Some _ _ Hpos) in Hget. split; [exact Hpos | congruence].
  - rewrite (get_intersect_None _ _ Hle) in Hget. discriminate.
Qed.

(** The guard of [get_intersect] alone makes its result valid, whatever the
    operands are. *)
Lemma get_intersect_valid a b r :
  get_intersect a b = Ok (Some r) → valid r.
Proof.
  intros [Hpos ->]%get_intersect_inv. unfold valid. simpl. lia.
Qed.

(** ** Construction *)

(** The constructor accepts a size of zero: no exception, and the range
    built has size 0. *)
Lemma init_zero_size_accepted :
  __init__ 0x1000 0 None = Ok (mkAddrRange 0x1000 0 None)
  ∧ ¬ (__init__ 0x1000 0 None = Raise "InvalidRangeError" ↔ 0 ≤ 0).
Proof.
  split; [reflexivity |].
  intros [_ Hraise]. specialize (Hraise (Z.le_refl 0)). discriminate Hraise.
Qed.

(** C1 (amended): construction performs no validation of [size].  For every
    integer size, positive, zero or negative, it succeeds and returns the
    range that holds exactly the base address, size and address width it was
    given; it raises no exception, [InvalidRangeError] included. *)
Theorem init_total (b s : Z) (w : option Z) :
  __init__ b s w = Ok (mkAddrRange b s w)
  ∧ (∀ exc, __init__ b s w ≠ Raise exc)
  ∧ (∀ r, __init__ b s w = Ok r → baseaddr r = b ∧ size r = s ∧ addrwidth r = w).
Proof.
  rewrite init_Ok. split; [reflexivity | split].
  - intros exc. discriminate.
  - intros r [= <-]. auto.
Qed.

(** ** The size invariant *)

(** The constructor builds a range of size 0: an instance whose size is not
    positive and whose end address lies below its base address. *)
Lemma init_zero_size_breaks_invariant :
  ∃ r, __init__ 0x1000 0 None = Ok r ∧ ¬ (1 ≤ size r ∧ baseaddr r ≤ endaddr r).
Proof.
  exists (mkAddrRange 0x1000 0 None). split; [reflexivity |].
  simpl. lia.
Qed.

(** C2 (amended): every range built by the constructor from a size of at
    least 1, and every range returned by [get_intersect], satisfies
    [size >= 1] and [endaddr >= baseaddr].  (The constructor stores the size
    unchecked, so for a constructed range the invariant is the caller's to
    establish; the [size > 0] guard of [get_intersect] secures it for every
    range that operation returns.) *)
Theorem live_invariant (r : AddrRange) :
  live r → 1 ≤ size r ∧ baseaddr r ≤ endaddr r.
Proof.
  intros Hlive.
  assert (Hvalid : valid r).
  { destruct Hlive as [b s w r Hs Hinit | a b r Hget].
    - rewrite init_Ok in Hinit. injection Hinit as <-. exact Hs.
    - exact (get_intersect_valid _ _ _ Hget). }
  split; [exact Hvalid | exact (valid_endaddr _ Hvalid)].
Qed.

Lemma live_invariant_witness :
  live r1FFF_1 ∧ 1 ≤ size r1FFF_1 ∧ baseaddr r1FFF_1 ≤ endaddr r1FFF_1.
Proof.
  assert (Hlive : live r1FFF_1).
  { apply (live_intersect r1000_4k r1FFF_1). reflexivity. }
  split; [exact Hlive | exact (live_invariant r1FFF_1 Hlive)].
Defined.

(** ** Overlap *)

(** C3: two valid ranges overlap, according to [is_overlapping], exactly
    when some address lies in both of them. *)
Theorem is_overlapping_iff_shared_address (a b : AddrRange) :
  valid a → valid b →
  (is_overlapping a b = true ↔
     ∃ v, __contains__ a v = true ∧ __contains__ b v = true).
Proof.
  intros Ha%valid_endaddr Hb%valid_endaddr.
  rewrite is_overlapping_iff. split.
  - intros [[Hlt Hle] | [Hle1 Hle2]].
    + exists (baseaddr b). rewrite !contains_iff. lia.
    + exists (baseaddr a). rewrite !contains_iff. lia.
  - intros (v & Hva & Hvb). rewrite contains_iff in Hva, Hvb. lia.
Qed.

Lemma is_overlapping_iff_shared_address_witness :
  valid r1000_4k ∧ valid r1FFF_1
  ∧ (is_overlapping r1000_4k r1FFF_1 = true ↔
       ∃ v, __contains__ r1000_4k v = true ∧ __contains__ r1FFF_1 v = true).
Proof.
  assert (Ha : valid r1000_4k) by (unfold valid; simpl; lia).
  assert (Hb : valid r1FFF_1) by (unfold valid; simpl; lia).
  split; [exact Ha | split; [exact Hb |]].
  exact (is_overlapping_iff_shared_address r1000_4k r1FFF_1 Ha Hb).
Defined.

(** C4: on valid ranges both operations return normally, and
    [get_intersect] returns [None] exactly when [is_overlapping] returns
    [False]. *)
Theorem get_intersect_None_iff_not_overlapping (a b : AddrRange) :
  valid a → valid b →
  ∃ (o : option AddrRange) (ov : bool),
    get_intersect a b = Ok o
    ∧ is_overlapping a b = ov
    ∧ (o = None ↔ ov = false).
Proof.
  intros Ha%valid_endaddr Hb%valid_endaddr.
  destruct (Z_lt_le_dec 0
              (Z.min (endaddr a) (endaddr b) - Z.max (baseaddr a) (baseaddr b) + 1))
    as [Hpos | Hle].
  - eexists _, _. split; [exact (get_intersect_Some _ _ Hpos) | split; [reflexivity |]].
    rewrite is_overlapping_false_iff. split; [discriminate | lia].
  - eexists _, _. split; [exact (get_intersect_None _ _ Hle) | split; [reflexivity |]].
    rewrite is_overlapping_false_iff. split; [lia | reflexivity].
Qed.

Lemma get_intersect_None_iff_not_overlapping_witness :
  valid r1000_4k ∧ valid r2000_4k
  ∧ ∃ (o : option AddrRange) (ov : bool),
      get_intersect r1000_4k r2000_4k = Ok o
      ∧ is_overlapping r1000_4k r2000_4k = ov
      ∧ (o = None ↔ ov = false).
Proof.
  assert (Ha : valid r1000_4k) by (unfold valid; simpl; lia).
  assert (Hb : valid r2000_4k) by (unfold valid; simpl; lia).
  split; [exact Ha | split; [exact Hb |]].
  exact (get_intersect_None_iff_not_overlapping r1000_4k r2000_4k Ha Hb).
Defined.

(** A range whose last address is the base address of a valid range shares
    that address with it, so the two overlap. *)
Lemma shared_end_address_overlaps a b :
  valid a → valid b → endaddr a = baseaddr b → is_overlapping a b = true.
Proof.
  intros Ha%valid_endaddr Hb%valid_endaddr Heq.
  rewrite is_overlapping_iff. lia.
Qed.

(** C5: on valid ranges the case split of [is_overlapping] computes the
    symmetric interval test
    [a.baseaddr <= b.endaddr and b.baseaddr <= a.endaddr].  At the ties:
    when [a] ends exactly where [b] begins, that is, the first address after
    [a] is the base address of [b] (as for 0x1000 + 4 KB against 0x2000), the
    ranges do not overlap; when the two have the same base address they
    overlap. *)
Theorem is_overlapping_symmetric_test (a b : AddrRange) :
  valid a → valid b →
  is_overlapping a b = overlap_symmetric a b
  ∧ (nextaddr a = baseaddr b → is_overlapping a b = false)
  ∧ (baseaddr a = baseaddr b → is_overlapping a b = true).
Proof.
  intros Ha%valid_endaddr Hb%valid_endaddr. split; [| split].
  - apply eq_true_iff_eq.
    rewrite is_overlapping_iff. unfold overlap_symmetric.
    rewrite andb_true_iff, !Z.leb_le. lia.
  - rewrite nextaddr_eq. intros Hadj.
    rewrite is_overlapping_false_iff. lia.
  - intros Hbase. rewrite is_overlapping_iff. lia.
Qed.

Lemma is_overlapping_symmetric_test_witness :
  valid r1000_4k ∧ valid r2000_4k
  ∧ is_overlapping r1000_4k r2000_4k = overlap_symmetric r1000_4k r2000_4k
  ∧ is_overlapping r1000_4k r2000_4k = false
  ∧ is_overlapping r1000_4k r1000_4k = true.
Proof.
  assert (Ha : valid r1000_4k) by (unfold valid; simpl; lia).
  assert (Hb : valid r2000_4k) by (unfold valid; simpl; lia).
  split; [exact Ha | split; [exact Hb |]].
  destruct (is_overlapping_symmetric_test r1000_4k r2000_4k Ha Hb) as (Heq & Hadj & _).
  destruct (is_overlapping_symmetric_test r1000_4k r1000_4k Ha Ha) as (_ & _ & Hbase).
  split; [exact Heq | split; [apply Hadj; reflexivity | apply Hbase; reflexivity]].
Defined.

(** ** Intersection *)

(** C6: a range [r] returned by [get_intersect a b] starts at the larger
    base address, ends at the smaller end address, has the size
    [endaddr - baseaddr + 1], and carries the address width of the receiver
    [a]. *)
Theorem get_intersect_bounds (a b r : AddrRange) :
  get_intersect a b = Ok (Some r) →
  baseaddr r = Z.max (baseaddr a) (baseaddr b)
  ∧ endaddr r = Z.min (endaddr a) (endaddr b)
  ∧ size r = endaddr r - baseaddr r + 1
  ∧ addrwidth r = addrwidth a.
Proof.
  intros [_ ->]%get_intersect_inv.
  rewrite (endaddr_eq (mkAddrRange _ _ _)). simpl.
  repeat split; lia.
Qed.

Lemma get_intersect_bounds_witness :
  get_intersect r3000_4k r0_32k = Ok (Some r3000_4k)
  ∧ baseaddr r3000_4k = Z.max (baseaddr r3000_4k) (baseaddr r0_32k)
  ∧ endaddr r3000_4k = Z.min (endaddr r3000_4k) (endaddr r0_32k)
  ∧ size r3000_4k = endaddr r3000_4k - baseaddr r3000_4k + 1
  ∧ addrwidth r3000_4k = addrwidth r3000_4k.
Proof.
  split; [reflexivity |].
  exact (get_intersect_bounds r3000_4k r0_32k r3000_4k eq_refl).
Defined.

(** C7: on valid ranges [is_overlapping] does not depend on the order of
    its operands, and [get_intersect a b] and [get_intersect b a] are both
    [None], or both a range with the same base and end address. *)
Theorem overlap_intersect_symmetric (a b : AddrRange) :
  valid a → valid b →
  is_overlapping a b = is_overlapping b a
  ∧ ((get_intersect a b = Ok None ∧ get_intersect b a = Ok None)
     ∨ ∃ r1 r2,
         get_intersect a b = Ok (Some r1)
         ∧ get_intersect b a = Ok (Some r2)
         ∧ baseaddr r1 = baseaddr r2
         ∧ endaddr r1 = endaddr r2).
Proof.
  intros Ha%valid_endaddr Hb%valid_endaddr. split.
  - apply eq_true_iff_eq. rewrite !is_overlapping_iff. lia.
  - destruct (Z_lt_le_dec 0
                (Z.min (endaddr a) (endaddr b) - Z.max (baseaddr a) (baseaddr b) + 1))
      as [Hpos | Hle].
    + right.
      assert (Hpos' : 0 < Z.min (endaddr b) (endaddr a)
                          - Z.max (baseaddr b) (baseaddr a) + 1) by lia.
      eexists _, _.
      split; [exact (get_intersect_Some _ _ Hpos) |].
      split; [exact (get_intersect_Some _ _ Hpos') |].
      rewrite !(endaddr_eq (mkAddrRange _ _ _)). simpl. lia.
    + left.
      assert (Hle' : Z.min (endaddr b) (endaddr a)
                       - Z.max (baseaddr b) (baseaddr a) + 1 ≤ 0) by lia.
      split; [exact (get_intersect_None _ _ Hle) | exact (get_intersect_None _ _ Hle')].
Qed.

Lemma overlap_intersect_symmetric_witness :
  valid r1000_100_w32 ∧ valid r0_32k
  ∧ is_overlapping r1000_100_w32 r0_32k = is_overlapping r0_32k r1000_100_w32
  ∧ ((get_intersect r1000_100_w32 r0_32k = Ok None
      ∧ get_intersect r0_32k r1000_100_w32 = Ok None)
     ∨ ∃ r1 r2,
         get_intersect r1000_100_w32 r0_32k = Ok (Some r1)
         ∧ get_intersect r0_32k r1000_100_w32 = Ok (Some r2)
         ∧ baseaddr r1 = baseaddr r2
         ∧ endaddr r1 = endaddr r2).
Proof.
  assert (Ha : valid r1000_100_w32) by (unfold valid; simpl; lia).
  assert (Hb : valid r0_32k) by (unfold valid; simpl; lia).
  split; [exact Ha | split; [exact Hb |]].
  exact (overlap_intersect_symmetric r1000_100_w32 r0_32k Ha Hb).
Defined.

(** The address width of an intersection follows the receiver: swapping the
    operands keeps the bounds and changes the width. *)
Example get_intersect_width_follows_receiver :
  get_intersect r1000_100_w32 r0_32k = Ok (Some (mkAddrRange 0x1000 0x100 (Some 32)))
  ∧ get_intersect r0_32k r1000_100_w32 = Ok (Some (mkAddrRange 0x1000 0x100 None)).
Proof. split; reflexivity. Qed.

(** ** Membership *)

(** C8: for a valid range, [value in r] holds exactly when
    [baseaddr <= value <= endaddr], with [endaddr = baseaddr + size - 1]; it
    holds at [baseaddr] and at [endaddr], and fails at [baseaddr - 1] and at
    [endaddr + 1]. *)
Theorem contains_spec (r : AddrRange) :
  valid r →
  endaddr r = baseaddr r + size r - 1
  ∧ (∀ v, __contains__ r v = true ↔ baseaddr r ≤ v ≤ endaddr r)
  ∧ __contains__ r (baseaddr r) = true
  ∧ __contains__ r (endaddr r) = true
  ∧ __contains__ r (baseaddr r - 1) = false
  ∧ __contains__ r (endaddr r + 1) = false.
Proof.
  intros Hr%valid_endaddr.
  split; [apply endaddr_eq |].
  split; [intros v; apply contains_iff |].
  rewrite !contains_iff, !contains_false_iff. lia.
Qed.

Lemma contains_spec_witness :
  valid r1000_100
  ∧ endaddr r1000_100 = 0x10FF
  ∧ __contains__ r1000_100 0x1000 = true
  ∧ __contains__ r1000_100 0x10FF = true
  ∧ __contains__ r1000_100 0xFFF = false
  ∧ __contains__ r1000_100 0x1100 = false.
Proof.
  assert (Hr : valid r1000_100) by (unfold valid; simpl; lia).
  split; [exact Hr |].
  destruct (contains_spec r1000_100 Hr) as (Hend & _ & Hlo & Hhi & Hbelow & Habove).
  split; [exact Hend |].
  split; [exact Hlo | split; [exact Hhi | split; [exact Hbelow | exact Habove]]].
Defined.

(** ** Iteration *)

Lemma seqZ_StronglySorted m n : StronglySorted Z.lt (seqZ m n).
Proof.
  destruct (Z_le_gt_dec n 0) as [Hle | Hgt].
  { rewrite seqZ_nil by exact Hle. constructor. }
  rewrite <- (Z2Nat.id n) by lia.
  generalize (Z.to_nat n) as k. clear n Hgt. intros k. revert m.
  induction k as [| k IH]; intros m.
  - rewrite seqZ_nil by lia. constructor.
  - rewrite seqZ_cons by lia.
    replace (Z.pred (Z.of_nat (S k))) with (Z.of_nat k) by lia.
    constructor; [apply IH |].
    apply Forall_seqZ. lia.
Qed.

Lemma range_length start stop :
  start ≤ stop → Z.of_nat (length (range start stop)) = stop - start.
Proof. intros Hle. unfold range. rewrite length_seqZ. lia. Qed.

Lemma range_lookup start stop (i : nat) :
  start + Z.of_nat i < stop → range start stop !! i = Some (start + Z.of_nat i).
Proof. intros Hlt. unfold range. apply lookup_seqZ_lt. lia. Qed.

Lemma elem_of_range start stop v : v ∈ range start stop ↔ start ≤ v < stop.
Proof. unfold range. rewrite elem_of_seqZ. lia. Qed.

(** C9: iterating a valid range yields exactly [size] addresses, strictly
    ascending, the first being [baseaddr] and the last
    [endaddr = baseaddr + size - 1]; the addresses yielded are those of the
    range, the [i]-th being [baseaddr + i]. *)
Theorem iter_spec (r : AddrRange) :
  valid r →
  Z.of_nat (length (__iter__ r)) = size r
  ∧ StronglySorted Z.lt (__iter__ r)
  ∧ head (__iter__ r) = Some (baseaddr r)
  ∧ last (__iter__ r) = Some (endaddr r)
  ∧ endaddr r = baseaddr r + size r - 1
  ∧ (∀ i : nat, Z.of_nat i < size r →
       __iter__ r !! i = Some (baseaddr r + Z.of_nat i))
  ∧ (∀ v, v ∈ __iter__ r ↔ __contains__ r v = true).
Proof.
  intros Hr. pose proof (valid_endaddr _ Hr) as Hend. unfold valid in Hr.
  assert (Hlen : Z.of_nat (length (__iter__ r)) = size r).
  { unfold __iter__. rewrite range_length by lia. rewrite endaddr_eq. lia. }
  assert (Hnth : ∀ i : nat, Z.of_nat i < size r →
                   __iter__ r !! i = Some (baseaddr r + Z.of_nat i)).
  { intros i Hi. unfold __iter__. apply range_lookup. rewrite endaddr_eq. lia. }
  split; [exact Hlen |].
  split; [apply seqZ_StronglySorted |].
  split.
  { rewrite head_lookup, (Hnth 0%nat) by lia. f_equal. lia. }
  split.
  { rewrite last_lookup, (Hnth (Nat.pred (length (__iter__ r)))) by lia.
    f_equal. rewrite endaddr_eq. lia. }
  split; [apply endaddr_eq |].
  split; [exact Hnth |].
  intros v. unfold __iter__. rewrite elem_of_range, contains_iff. lia.
Qed.

Lemma iter_spec_witness :
  valid r200_6
  ∧ Z.of_nat (length (__iter__ r200_6)) = 6
  ∧ StronglySorted Z.lt (__iter__ r200_6)
  ∧ head (__iter__ r200_6) = Some 0x200
  ∧ last (__iter__ r200_6) = Some 0x205.
Proof.
  assert (Hr : valid r200_6) by (unfold valid; simpl; lia).
  split; [exact Hr |].
  destruct (iter_spec r200_6 Hr) as (Hlen & Hsorted & Hhead & Hlast & _).
  split; [exact Hlen | split; [exact Hsorted | split; [exact Hhead | exact Hlast]]].
Defined.

(** ** Equality *)

Lemma optint_eqb_eq x y : optint_eqb x y = true ↔ x = y.
Proof.
  destruct x as [m |], y as [n |]; simpl; try (split; [discriminate | congruence]).
  - rewrite Z.eqb_eq. split; congruence.
  - tauto.
Qed.

Lemma eq_AddrRange_true a b :
  __eq__ a (PyAddrRange b) = PyBool true ↔ key a = key b.
Proof.
  unfold __eq__, key. split.
  - intros [= Heq]. rewrite !andb_true_iff, optint_eqb_eq, !Z.eqb_eq in Heq.
    destruct Heq as [[-> ->] ->]. reflexivity.
  - intros [= -> -> ->]. f_equal.
    rewrite !andb_true_iff, optint_eqb_eq, !Z.eqb_eq. auto.
Qed.

Lemma eq_AddrRange_bool a b : ∃ res, __eq__ a (PyAddrRange b) = PyBool res.
Proof. eexists. reflexivity. Qed.

(** C10: [a == b] on two ranges is [True] exactly when the tuples
    [(baseaddr, size, addrwidth)] are equal, and [False] otherwise, so the
    address width takes part in the comparison; against an object that is
    not an [AddrRange] the method answers [NotImplemented], not [False]. *)
Theorem eq_structural (a b : AddrRange) (other : pyobj) :
  (∀ r, other ≠ PyAddrRange r) →
  (__eq__ a (PyAddrRange b) = PyBool true ↔ key a = key b)
  ∧ (__eq__ a (PyAddrRange b) = PyBool false ↔ key a ≠ key b)
  ∧ (baseaddr a = baseaddr b → size a = size b → addrwidth a ≠ addrwidth b →
     __eq__ a (PyAddrRange b) = PyBool false)
  ∧ __eq__ a other = NotImplemented
  ∧ __eq__ a other ≠ PyBool false.
Proof.
  intros Hother.
  pose proof (eq_AddrRange_true a b) as Htrue.
  assert (Hfalse : __eq__ a (PyAddrRange b) = PyBool false ↔ key a ≠ key b).
  { destruct (eq_AddrRange_bool a b) as [[] Hres]; rewrite Hres in Htrue |- *.
    - split; [discriminate |]. intros Hne. destruct Hne. apply Htrue. reflexivity.
    - split; [| reflexivity]. intros _ Hkey. apply Htrue in Hkey. discriminate. }
  assert (Hni : __eq__ a other = NotImplemented).
  { destruct other as [| | | | r |]; try reflexivity.
    destruct (Hother r). reflexivity. }
  split; [exact Htrue | split; [exact Hfalse | split; [| split]]].
  - intros _ _ Hw. apply Hfalse. unfold key. congruence.
  - exact Hni.
  - rewrite Hni. discriminate.
Qed.

Lemma eq_structural_witness :
  (∀ r, PyInt 0x1000 ≠ PyAddrRange r)
  ∧ __eq__ r1000_100_w32 (PyAddrRange r1000_100) = PyBool false
  ∧ __eq__ r1000_100_w32 (PyInt 0x1000) = NotImplemented.
Proof.
  assert (Hother : ∀ r, PyInt 0x1000 ≠ PyAddrRange r) by (intros r; discriminate).
  split; [exact Hother |].
  destruct (eq_structural r1000_100_w32 r1000_100 (PyInt 0x1000) Hother)
    as (_ & _ & Hwidth & Hni & _).
  split; [| exact Hni].
  apply Hwidth; [reflexivity | reflexivity | discriminate].
Defined.

(** ** Further properties of the intersection *)

(** The two outcomes of [get_intersect], decided by the sign of the size it
    computes. *)
Lemma get_intersect_cases a b :
  (0 < Z.min (endaddr a) (endaddr b) - Z.max (baseaddr a) (baseaddr b) + 1
   ∧ get_intersect a b =
       Ok (Some (mkAddrRange
                   (Z.max (baseaddr a) (baseaddr b))
                   (Z.min (endaddr a) (endaddr b) - Z.max (baseaddr a) (baseaddr b) + 1)
                   (addrwidth a))))
  ∨ (Z.min (endaddr a) (endaddr b) - Z.max (baseaddr a) (baseaddr b) + 1 ≤ 0
     ∧ get_intersect a b = Ok None).
Proof.
  destruct (Z_lt_le_dec 0
              (Z.min (endaddr a) (endaddr b) - Z.max (baseaddr a) (baseaddr b) + 1))
    as [Hpos | Hle].
  - left. split; [exact Hpos | exact (get_intersect_Some _ _ Hpos)].
  - right. split; [exact Hle | exact (get_intersect_None _ _ Hle)].
Qed.

(** An address lies in the range returned by [get_intersect a b] exactly
    when it lies in both [a] and [b]; when nothing is returned, no address
    lies in both.  No assumption on the sizes. *)
Theorem get_intersect_membership (a b : AddrRange) (v : Z) :
  (∃ r, get_intersect a b = Ok (Some r) ∧ __contains__ r v = true) ↔
    __contains__ a v = true ∧ __contains__ b v = true.
Proof.
  rewrite !contains_iff. split.
  - intros (r & [Hpos ->]%get_intersect_inv & Hv).
    rewrite contains_iff, (endaddr_eq (mkAddrRange _ _ _)) in Hv.
    simpl in Hv. lia.
  - intros [Hva Hvb].
    destruct (get_intersect_cases a b) as [[Hpos Hget] | [Hle Hget]]; [| lia].
    eexists. split; [exact Hget |].
    rewrite contains_iff, (endaddr_eq (mkAddrRange _ _ _)). simpl. lia.
Qed.

(** Intersecting a valid range with itself returns that very range. *)
Theorem get_intersect_self (a : AddrRange) :
  valid a → get_intersect a a = Ok (Some a).
Proof.
  intros Ha%valid_endaddr.
  rewrite get_intersect_Some by lia.
  destruct a as [b s w]. do 2 f_equal.
  rewrite endaddr_eq. simpl. f_equal; lia.
Qed.

Lemma get_intersect_self_witness :
  valid r1000_100_w32 ∧ get_intersect r1000_100_w32 r1000_100_w32 = Ok (Some r1000_100_w32).
Proof.
  assert (Ha : valid r1000_100_w32) by (unfold valid; simpl; lia).
  split; [exact Ha | exact (get_intersect_self r1000_100_w32 Ha)].
Defined.

(** A valid range that lies inside another one is its own intersection with
    it; taken from the other side, the same bounds come back with the other
    range's address width. *)
Theorem get_intersect_contained (a b : AddrRange) :
  valid a → baseaddr b ≤ baseaddr a → endaddr a ≤ endaddr b →
  get_intersect a b = Ok (Some a)
  ∧ get_intersect b a = Ok (Some (mkAddrRange (baseaddr a) (size a) (addrwidth b))).
Proof.
  intros Ha%valid_endaddr Hbase Hend. split.
  - rewrite get_intersect_Some by lia.
    destruct a as [ba sa wa]. do 2 f_equal.
    rewrite endaddr_eq in Hend |- *. simpl in *. f_equal; lia.
  - rewrite get_intersect_Some by lia.
    do 2 f_equal. rewrite (endaddr_eq a) in Hend |- *. f_equal; lia.
Qed.

Lemma get_intersect_contained_witness :
  valid r1000_100_w32
  ∧ get_intersect r1000_100_w32 r0_32k = Ok (Some r1000_100_w32)
  ∧ get_intersect r0_32k r1000_100_w32 = Ok (Some r1000_100).
Proof.
  assert (Ha : valid r1000_100_w32) by (unfold valid; simpl; lia).
  split; [exact Ha |].
  apply (get_intersect_contained r1000_100_w32 r0_32k Ha);
    rewrite ?endaddr_eq; simpl; lia.
Defined.

(** Intersecting three ranges gives the same answer whichever pair is
    intersected first: the same absence, or the same bounds with the address
    width of the leftmost range. *)
Theorem get_intersect_assoc (a b c : AddrRange) :
  result_bind
    (λ ab, match ab with Some r => get_intersect r c | None => Ok None end)
    (get_intersect a b)
  = result_bind
      (λ bc, match bc with Some r => get_intersect a r | None => Ok None end)
      (get_intersect b c).
Proof.
  destruct (get_intersect_cases a b) as [[Hab ->] | [Hab ->]];
    destruct (get_intersect_cases b c) as [[Hbc ->] | [Hbc ->]]; simpl.
  - destruct (get_intersect_cases
                (mkAddrRange (Z.max (baseaddr a) (baseaddr b))
                   (Z.min (endaddr a) (endaddr b) - Z.max (baseaddr a) (baseaddr b) + 1)
                   (addrwidth a)) c) as [[Hl ->] | [Hl ->]];
      destruct (get_intersect_cases a
                  (mkAddrRange (Z.max (baseaddr b) (baseaddr c))
                     (Z.min (endaddr b) (endaddr c) - Z.max (baseaddr b) (baseaddr c) + 1)
                     (addrwidth b))) as [[Hr ->] | [Hr ->]];
      rewrite !(endaddr_eq (mkAddrRange _ _ _)) in *; simpl in *;
      try reflexivity; try lia.
    do 2 f_equal. f_equal; lia.
  - destruct (get_intersect_cases
                (mkAddrRange (Z.max (baseaddr a) (baseaddr b))
                   (Z.min (endaddr a) (endaddr b) - Z.max (baseaddr a) (baseaddr b) + 1)
                   (addrwidth a)) c) as [[Hl ->] | [Hl ->]];
      rewrite !(endaddr_eq (mkAddrRange _ _ _)) in *; simpl in *;
      try reflexivity; lia.
  - destruct (get_intersect_cases a
                (mkAddrRange (Z.max (baseaddr b) (baseaddr c))
                   (Z.min (endaddr b) (endaddr c) - Z.max (baseaddr b) (baseaddr c) + 1)
                   (addrwidth b))) as [[Hr ->] | [Hr ->]];
      rewrite !(endaddr_eq (mkAddrRange _ _ _)) in *; simpl in *;
      try reflexivity; lia.
  - reflexivity.
Qed.

(** [get_intersect] returns a range only when both operands have a positive
    size; the range is then no larger than either operand, and
    [is_overlapping] holds in both directions. *)
Theorem get_intersect_Some_operands (a b r : AddrRange) :
  get_intersect a b = Ok (Some r) →
  valid a ∧ valid b
  ∧ size r ≤ size a ∧ size r ≤ size b
  ∧ is_overlapping a b = true ∧ is_overlapping b a = true.
Proof.
  intros [Hpos ->]%get_intersect_inv.
  unfold valid. rewrite !is_overlapping_iff.
  rewrite !endaddr_eq in *. simpl. lia.
Qed.

Lemma get_intersect_Some_operands_witness :
  get_intersect r1000_4k r1FFF_1 = Ok (Some r1FFF_1)
  ∧ valid r1000_4k ∧ valid r1FFF_1
  ∧ size r1FFF_1 ≤ size r1000_4k ∧ size r1FFF_1 ≤ size r1FFF_1
  ∧ is_overlapping r1000_4k r1FFF_1 = true ∧ is_overlapping r1FFF_1 r1000_4k = true.
Proof.
  split; [reflexivity |].
  exact (get_intersect_Some_operands r1000_4k r1FFF_1 r1FFF_1 eq_refl).
Defined.

(** ** Further properties of the overlap test *)

(** When the base addresses differ, [is_overlapping] gives the same answer
    in both directions, whatever the sizes are. *)
Theorem is_overlapping_sym_distinct_base (a b : AddrRange) :
  baseaddr a ≠ baseaddr b → is_overlapping a b = is_overlapping b a.
Proof.
  intros Hne. apply eq_true_iff_eq. rewrite !is_overlapping_iff. lia.
Qed.

Lemma is_overlapping_sym_distinct_base_witness :
  baseaddr r3000_4k ≠ baseaddr r0_32k
  ∧ is_overlapping r3000_4k r0_32k = is_overlapping r0_32k r3000_4k.
Proof.
  assert (Hne : baseaddr r3000_4k ≠ baseaddr r0_32k) by (simpl; lia).
  split; [exact Hne | exact (is_overlapping_sym_distinct_base r3000_4k r0_32k Hne)].
Defined.

(** When the base addresses are equal, [is_overlapping] looks at the
    argument only: it answers [True] exactly when the argument has a size of
    at least 1, whatever the size of the receiver. *)
Theorem is_overlapping_same_base (a b : AddrRange) :
  baseaddr a = baseaddr b → (is_overlapping a b = true ↔ 1 ≤ size b).
Proof.
  intros Heq. rewrite is_overlapping_iff, !endaddr_eq. lia.
Qed.

Lemma is_overlapping_same_base_witness :
  baseaddr (mkAddrRange 0x1000 0 None) = baseaddr r1000_100
  ∧ is_overlapping (mkAddrRange 0x1000 0 None) r1000_100 = true
  ∧ is_overlapping r1000_100 (mkAddrRange 0x1000 0 None) = false.
Proof.
  split; [reflexivity | split].
  - apply (is_overlapping_same_base (mkAddrRange 0x1000 0 None) r1000_100 eq_refl).
    simpl. lia.
  - apply not_true_iff_false. intros Hov.
    apply (is_overlapping_same_base r1000_100 (mkAddrRange 0x1000 0 None) eq_refl) in Hov.
    simpl in Hov. lia.
Defined.

(** Two valid ranges do not overlap exactly when one of them starts at or
    after the next address of the other. *)
Theorem not_overlapping_iff_nextaddr (a b : AddrRange) :
  valid a → valid b →
  (is_overlapping a b = false ↔ nextaddr a ≤ baseaddr b ∨ nextaddr b ≤ baseaddr a).
Proof.
  intros Ha%valid_endaddr Hb%valid_endaddr.
  rewrite is_overlapping_false_iff, !nextaddr_eq. lia.
Qed.

Lemma not_overlapping_iff_nextaddr_witness :
  valid r1000_4k ∧ valid r2000_4k
  ∧ (is_overlapping r1000_4k r2000_4k = false ↔
       nextaddr r1000_4k ≤ baseaddr r2000_4k ∨ nextaddr r2000_4k ≤ baseaddr r1000_4k).
Proof.
  assert (Ha : valid r1000_4k) by (unfold valid; simpl; lia).
  assert (Hb : valid r2000_4k) by (unfold valid; simpl; lia).
  split; [exact Ha | split; [exact Hb |]].
  exact (not_overlapping_iff_nextaddr r1000_4k r2000_4k Ha Hb).
Defined.

(** ** Further properties of iteration *)

(** For every range, a size of zero or less included: iteration yields
    [max(0, size)] addresses, none of them twice, and an address is yielded
    exactly when [in] accepts it. *)
Theorem iter_contains_any_size (r : AddrRange) :
  length (__iter__ r) = Z.to_nat (size r)
  ∧ NoDup (__iter__ r)
  ∧ (∀ v, v ∈ __iter__ r ↔ __contains__ r v = true).
Proof.
  unfold __iter__, range. split; [| split].
  - rewrite length_seqZ, endaddr_eq. f_equal. lia.
  - apply NoDup_seqZ.
  - intros v. rewrite elem_of_seqZ, contains_iff. lia.
Qed.

(** A range whose size is zero or negative is empty for every operation:
    iteration yields nothing, no address is contained, and its intersection
    with any range, from either side, is absent. *)
Theorem nonpositive_size_empty (r : AddrRange) :
  size r ≤ 0 →
  __iter__ r = []
  ∧ (∀ v, __contains__ r v = false)
  ∧ (∀ b, get_intersect r b = Ok None ∧ get_intersect b r = Ok None).
Proof.
  intros Hsize.
  assert (Hend : endaddr r < baseaddr r) by (rewrite endaddr_eq; lia).
  split; [| split].
  - unfold __iter__, range. apply seqZ_nil. lia.
  - intros v. rewrite contains_false_iff. lia.
  - intros b. split; apply get_intersect_None; lia.
Qed.

Lemma nonpositive_size_empty_witness :
  size (mkAddrRange 0x1000 0 None) ≤ 0
  ∧ __iter__ (mkAddrRange 0x1000 0 None) = []
  ∧ __contains__ (mkAddrRange 0x1000 0 None) 0x1000 = false
  ∧ get_intersect (mkAddrRange 0x1000 0 None) r0_32k = Ok None.
Proof.
  assert (Hsize : size (mkAddrRange 0x1000 0 None) ≤ 0) by (simpl; lia).
  split; [exact Hsize |].
  destruct (nonpositive_size_empty (mkAddrRange 0x1000 0 None) Hsize)
    as (Hiter & Hin & Hget).
  split; [exact Hiter | split; [exact (Hin 0x1000) | exact (proj1 (Hget r0_32k))]].
Defined.

(** Iterating a range and then the range that starts at its next address
    yields the same addresses, in the same order, as iterating one range
    that starts at the first base address and has the sum of the sizes. *)
Theorem iter_adjacent_app (a b : AddrRange) (w : option Z) :
  valid a → valid b → baseaddr b = nextaddr a →
  __iter__ a ++ __iter__ b = __iter__ (mkAddrRange (baseaddr a) (size a + size b) w).
Proof.
  unfold valid. intros Ha Hb Hadj.
  rewrite nextaddr_eq, endaddr_eq in Hadj.
  unfold __iter__, range. rewrite !endaddr_eq. simpl. rewrite Hadj.
  replace (baseaddr a + size a - 1 + 1 - baseaddr a) with (size a) by lia.
  replace (baseaddr a + size a - 1 + 1 + size b - 1 + 1 - (baseaddr a + size a - 1 + 1))
    with (size b) by lia.
  replace (baseaddr a + (size a + size b) - 1 + 1 - baseaddr a)
    with (size a + size b) by lia.
  replace (baseaddr a + size a - 1 + 1) with (baseaddr a + size a) by lia.
  symmetry. apply seqZ_app; lia.
Qed.

Lemma iter_adjacent_app_witness :
  valid r1000_4k ∧ valid r2000_4k ∧ baseaddr r2000_4k = nextaddr r1000_4k
  ∧ __iter__ r1000_4k ++ __iter__ r2000_4k = __iter__ (mkAddrRange 0x1000 0x2000 None).
Proof.
  assert (Ha : valid r1000_4k) by (unfold valid; simpl; lia).
  assert (Hb : valid r2000_4k) by (unfold valid; simpl; lia).
  split; [exact Ha | split; [exact Hb | split; [reflexivity |]]].
  exact (iter_adjacent_app r1000_4k r2000_4k None Ha Hb eq_refl).
Defined.

(** ** Further properties of equality *)

(** [==] between ranges is reflexive and gives the same answer in both
    directions. *)
Theorem eq_refl_sym (a b : AddrRange) :
  __eq__ a (PyAddrRange a) = PyBool true
  ∧ __eq__ a (PyAddrRange b) = __eq__ b (PyAddrRange a).
Proof.
  split.
  - apply eq_AddrRange_true. reflexivity.
  - destruct (eq_AddrRange_bool a b) as [x Hx], (eq_AddrRange_bool b a) as [y Hy].
    rewrite Hx, Hy. f_equal. apply eq_true_iff_eq.
    split; intros ->.
    + apply eq_AddrRange_true in Hx. symmetry in Hx.
      apply eq_AddrRange_true in Hx. congruence.
    + apply eq_AddrRange_true in Hy. symmetry in Hy.
      apply eq_AddrRange_true in Hy. congruence.
Qed.

(** Two ranges that compare equal cannot be told apart by any operation:
    same end and next address, same iteration, same membership, same overlap
    and intersection with any third range, and equal to the same ranges. *)
Theorem eq_true_indistinguishable (a b : AddrRange) :
  __eq__ a (PyAddrRange b) = PyBool true →
  endaddr a = endaddr b
  ∧ nextaddr a = nextaddr b
  ∧ __iter__ a = __iter__ b
  ∧ (∀ v, __contains__ a v = __contains__ b v)
  ∧ (∀ c, is_overlapping a c = is_overlapping b c
          ∧ is_overlapping c a = is_overlapping c b
          ∧ get_intersect a c = get_intersect b c
          ∧ get_intersect c a = get_intersect c b
          ∧ __eq__ a (PyAddrRange c) = __eq__ b (PyAddrRange c)).
Proof.
  intros Hkey%eq_AddrRange_true.
  assert (Hab : a = b).
  { destruct a, b. unfold key in Hkey. simpl in Hkey. congruence. }
  subst b. repeat split; reflexivity.
Qed.

Lemma eq_true_indistinguishable_witness :
  __eq__ r1000_100 (PyAddrRange (mkAddrRange 0x1000 0x100 None)) = PyBool true
  ∧ endaddr r1000_100 = endaddr (mkAddrRange 0x1000 0x100 None)
  ∧ __iter__ r1000_100 = __iter__ (mkAddrRange 0x1000 0x100 None).
Proof.
  split; [reflexivity |].
  destruct (eq_true_indistinguishable r1000_100 (mkAddrRange 0x1000 0x100 None) eq_refl)
    as (Hend & _ & Hiter & _).
  split; [exact Hend | exact Hiter].
Defined.
